(** * degenbot: Uniswap V2 helper functions

    A shallow embedding of [src/degenbot/uniswap/v2_functions.py]:
    the CREATE2 pool-address derivation, the resolution of a token path
    into pools, and the two constant-product swap formulas, together with
    the properties stated for them. *)

From Stdlib Require Import ZArith List Lia Bool String QArith Qround.
From Stdlib.Strings Require Import Byte.
Import ListNotations.
Local Open Scope Z_scope.

(** ** The fragment of Python the functions run on *)

(** Exceptions.  [ZeroDivisionError] is the builtin raised by [//] on a zero
    divisor.  The other four are the error names of the documented taxonomy;
    they are listed so that statements about them can be written down.
    [OtherError] stands for any exception raised by a library or collaborator
    (hexbytes, eth_abi, the pool manager). *)
Inductive exn : Type :=
| ZeroDivisionError
| UninitializedPool
| InsufficientReserve
| InvalidAddressLength
| PoolNotFound (token_a token_b : string)
| OtherError (name : string).

(** The outcome of a call: a returned value or a raised exception. *)
Inductive outcome (A : Type) : Type :=
| Ok (a : A)
| Raise (e : exn).
Arguments Ok {A} a.
Arguments Raise {A} e.

Definition bind {A B : Type} (r : outcome A) (k : A -> outcome B) : outcome B :=
  match r with
  | Ok a => k a
  | Raise e => Raise e
  end.

Notation "x <- r ;; k" := (bind r (fun x => k))
  (at level 61, r at next level, right associativity).

(** Python's [int] is unbounded, so it is [Z].  [a // b] is floor division
    (the remainder takes the sign of the divisor), which is [Z.div]; unlike
    [Z.div], it raises on a zero divisor. *)
Definition floordiv (a b : Z) : outcome Z :=
  if b =? 0 then Raise ZeroDivisionError else Ok (a / b).

(** [fractions.Fraction]: the two integer attributes read by the swap
    functions.  A [Fraction] object is always normalised. *)
Record Fraction : Type := mkFraction { numerator : Z; denominator : Z }.

Definition Fraction_normalised (f : Fraction) : Prop :=
  0 < denominator f /\ Z.gcd (numerator f) (denominator f) = 1.

(** ** Swap mathematics *)

(** [constant_product_calc_exact_in], lines 62-74. *)
Definition constant_product_calc_exact_in
    (amount_in reserves_in reserves_out : Z) (fee : Fraction) : outcome Z :=
  floordiv
    (amount_in * (denominator fee - numerator fee) * reserves_out)
    (reserves_in * denominator fee
     + amount_in * (denominator fee - numerator fee)).

(** [constant_product_calc_exact_out], lines 77-90. *)
Definition constant_product_calc_exact_out
    (amount_out reserves_in reserves_out : Z) (fee : Fraction) : outcome Z :=
  q <- floordiv
         (reserves_in * amount_out * denominator fee)
         ((reserves_out - amount_out) * (denominator fee - numerator fee)) ;;
  Ok (1 + q).

(** The documented exact-input formula, written as the floor of a rational
    number.  It follows the documentation, not the code, and is only used to
    compare the two. *)
Definition spec_amount_out
    (amount_in reserve_in reserve_out : Z) (fee : Fraction) : Z :=
  let feeFactor := denominator fee - numerator fee in
  Qfloor (inject_Z (amount_in * feeFactor * reserve_out)
          / inject_Z (reserve_in * denominator fee + amount_in * feeFactor))%Q.

(** The round trip of the rounding-safety property: quote the output of
    [amount_in], then quote the input of that output on the reserves as they
    stand after the swap. *)
Definition round_trip
    (amount_in reserve_in reserve_out : Z) (fee : Fraction) : outcome Z :=
  out <- constant_product_calc_exact_in amount_in reserve_in reserve_out fee ;;
  constant_product_calc_exact_out
    out (reserve_in + amount_in) (reserve_out - out) fee.

(** The usual 0.3% fee. *)
Definition fee_3_1000 : Fraction := mkFraction 3 1000.

(** ** Pool address derivation *)

(** Python [bytes], and the [str | bytes] union of the address arguments. *)
Definition bytes : Type := list byte.

Inductive str_or_bytes : Type :=
| Str (s : string)
| Bytes (b : bytes).

(** [ChecksumAddress] is a [str]. *)
Definition ChecksumAddress : Type := string.

(** The library functions [generate_v2_pool_address] calls.  None of them is
    part of the file: [hexstr_to_bytes] is the string branch of
    [HexBytes(...)], [keccak] is [eth_utils.crypto.keccak],
    [encode_packed] is [eth_abi.packed.encode_packed] and [create2_address]
    is [degenbot.functions.create2_address].  Each is taken as given;
    those that validate their input may raise. *)
Class EthLibraries : Type := {
  hexstr_to_bytes : string -> outcome bytes;
  keccak : bytes -> bytes;
  encode_packed : list string -> list bytes -> outcome bytes;
  create2_address : str_or_bytes -> bytes -> str_or_bytes
                    -> outcome ChecksumAddress
}.

(** [HexBytes(address)]: a [bytes] value is kept as it is, a [str] is
    decoded. *)
Definition HexBytes `{EthLibraries} (address : str_or_bytes) : outcome bytes :=
  match address with
  | Bytes b => Ok b
  | Str s => hexstr_to_bytes s
  end.

(** A list comprehension [[f(x) for x in l]]: elements are evaluated from
    left to right and the first exception ends the evaluation. *)
Fixpoint comprehension {A B : Type} (f : A -> outcome B) (l : list A)
  : outcome (list B) :=
  match l with
  | [] => Ok []
  | x :: l' => y <- f x ;; ys <- comprehension f l' ;; Ok (y :: ys)
  end.

(** [a < b] on [bytes]: lexicographic on the unsigned byte values, a proper
    prefix being smaller. *)
Fixpoint bytes_lt (a b : bytes) : bool :=
  match a, b with
  | _, [] => false
  | [], _ :: _ => true
  | x :: a', y :: b' =>
      if (Byte.to_N x <? Byte.to_N y)%N then true
      else if (Byte.to_N y <? Byte.to_N x)%N then false
      else bytes_lt a' b'
  end.

(** [sorted(l)] on a list of [bytes].  Python's sort is stable and compares
    with [<] only; a stable insertion sort returns the same list. *)
Fixpoint insert_sorted (x : bytes) (l : list bytes) : list bytes :=
  match l with
  | [] => [x]
  | y :: l' => if bytes_lt y x then y :: insert_sorted x l' else x :: y :: l'
  end.

Fixpoint sorted (l : list bytes) : list bytes :=
  match l with
  | [] => []
  | x :: l' => insert_sorted x (sorted l')
  end.

(** [generate_v2_pool_address], lines 18-43. *)
Definition generate_v2_pool_address `{EthLibraries}
    (deployer_address : str_or_bytes)
    (token_addresses : list str_or_bytes)
    (init_hash : str_or_bytes) : outcome ChecksumAddress :=
  hex_addresses <- comprehension HexBytes token_addresses ;;
  let sorted_token_addresses := sorted hex_addresses in
  packed <- encode_packed ["address"%string; "address"%string]
                          sorted_token_addresses ;;
  let salt := keccak packed in
  create2_address deployer_address salt init_hash.

(** ** Path resolution *)

(** One call of [pool_manager.get_pool_from_tokens]. *)
Record lookup : Type := mkLookup {
  token_addresses : ChecksumAddress * ChecksumAddress;
  silent : bool
}.

(** The pool manager is an object outside the file.  Its answer to a call
    may depend on its state, and its state on the calls it has served; so
    the method is a function of the calls made before and of the call
    itself.  It returns a pool or raises. *)
Record UniswapV2PoolManager (Pool : Type) : Type := {
  get_pool_from_tokens : list lookup -> lookup -> outcome Pool
}.
Arguments get_pool_from_tokens {Pool} _ _ _.

(** Computations that call the pool manager: the calls made so far are
    threaded through, and are kept when an exception is raised. *)
Definition Calls (A : Type) : Type := list lookup -> outcome A * list lookup.

Definition ret {A : Type} (a : A) : Calls A := fun log => (Ok a, log).

Definition bindC {A B : Type} (c : Calls A) (k : A -> Calls B) : Calls B :=
  fun log =>
    match c log with
    | (Ok a, log') => k a log'
    | (Raise e, log') => (Raise e, log')
    end.

Notation "x <~ c ;; k" := (bindC c (fun x => k))
  (at level 61, c at next level, right associativity).

Definition call_get_pool_from_tokens {Pool : Type}
    (pool_manager : UniswapV2PoolManager Pool) (l : lookup) : Calls Pool :=
  fun log => (get_pool_from_tokens pool_manager log l, log ++ [l]).

(** [itertools.pairwise]: the consecutive overlapping pairs. *)
Fixpoint pairwise {A : Type} (l : list A) : list (A * A) :=
  match l with
  | a :: (b :: _) as tl => (a, b) :: pairwise tl
  | _ => []
  end.

(** The [for] loop of [get_v2_pools_from_token_path]: [result] is the list
    built so far, [pairs] what is left of the iteration. *)
Fixpoint resolve_loop {Pool : Type} (pool_manager : UniswapV2PoolManager Pool)
    (pairs : list (ChecksumAddress * ChecksumAddress)) (result : list Pool)
  : Calls (list Pool) :=
  match pairs with
  | [] => ret result
  | token_addresses :: pairs' =>
      pool <~ call_get_pool_from_tokens pool_manager
                (mkLookup token_addresses true) ;;
      resolve_loop pool_manager pairs' (result ++ [pool])
  end.

(** [get_v2_pools_from_token_path], lines 46-59.  The outcome comes with the
    calls made to the pool manager, in order. *)
Definition get_v2_pools_from_token_path {Pool : Type}
    (tx_path : list ChecksumAddress)
    (pool_manager : UniswapV2PoolManager Pool)
  : outcome (list Pool) * list lookup :=
  resolve_loop pool_manager (pairwise tx_path) [] [].

(** ** Fixtures used by the examples *)

(** A pool manager that knows the pools A/B (pool 1) and C/D (pool 3) and no
    pool for B/C, whatever was asked before. *)
Definition three_hop_manager : UniswapV2PoolManager nat := {|
  get_pool_from_tokens := fun _ l =>
    let (a, b) := token_addresses l in
    if (String.eqb a "A" && String.eqb b "B")%bool then Ok 1%nat
    else if (String.eqb a "C" && String.eqb b "D")%bool then Ok 3%nat
    else Raise (PoolNotFound a b)
|}.

(** Stand-ins for the libraries, good enough to run the address derivation:
    no string decodes, the hash is the identity, packing is concatenation
    and the address is the salt read as a string. *)
Definition plain_libraries : EthLibraries := {|
  hexstr_to_bytes := fun _ => Raise (OtherError "ValueError");
  keccak := fun b => b;
  encode_packed := fun _ values => Ok (List.concat values);
  create2_address := fun _ salt _ =>
    Ok (String.string_of_list_byte salt)
|}.

(** A manager with state: it serves two calls, numbering the pools it
    hands out, and raises from the third call on. *)
Definition two_call_manager : UniswapV2PoolManager nat := {|
  get_pool_from_tokens := fun log _ =>
    if (List.length log <? 2)%nat then Ok (List.length log)
    else Raise (OtherError "ManagerError")
|}.

(** A manager without state that has a pool for every pair of different
    tokens; the pool is named by its pair. *)
Definition any_pair_manager : UniswapV2PoolManager (string * string) := {|
  get_pool_from_tokens := fun _ l =>
    let (a, b) := token_addresses l in
    if String.eqb a b then Raise (PoolNotFound a b) else Ok (a, b)
|}.

(** * Properties *)

(** ** Floor division *)

Lemma floordiv_zero (a : Z) : floordiv a 0 = Raise ZeroDivisionError.
Proof. reflexivity. Qed.

Lemma floordiv_nonzero (a b : Z) : b <> 0 -> floordiv a b = Ok (a / b).
Proof.
  intros Hb. unfold floordiv.
  destruct (Z.eqb_spec b 0) as [E | _]; [contradiction | reflexivity].
Qed.

(** [floordiv] raises nothing but [ZeroDivisionError]. *)
Lemma floordiv_raises (a b : Z) (e : exn) :
  floordiv a b = Raise e -> e = ZeroDivisionError /\ b = 0.
Proof.
  unfold floordiv. destruct (Z.eqb_spec b 0) as [E | _]; intros H.
  - inversion H. auto.
  - discriminate H.
Qed.

(** Quotients of positive divisors compare as the cross products do. *)
Lemma div_le_cross (n1 d1 n2 d2 : Z) :
  0 < d1 -> 0 < d2 -> n1 * d2 <= n2 * d1 -> n1 / d1 <= n2 / d2.
Proof.
  intros H1 H2 Hc.
  apply Z.div_le_lower_bound; [assumption |].
  pose proof (Z.mul_div_le n1 d1 H1) as Hq.
  apply (Z.mul_le_mono_pos_l _ _ d1 H1).
  apply Z.le_trans with (n1 * d2); [| lia].
  replace (d1 * (d2 * (n1 / d1))) with (d1 * (n1 / d1) * d2) by ring.
  apply Z.mul_le_mono_nonneg_r; lia.
Qed.

(** A positive numerator over a negative divisor floors below zero. *)
Lemma div_pos_neg (n d : Z) : 0 < n -> d < 0 -> n / d <= -1.
Proof.
  intros Hn Hd.
  rewrite <- (Z.div_opp_opp n d) by lia.
  assert (- n / - d < 0); [| lia].
  apply Z.div_lt_upper_bound; lia.
Qed.

(** ** Swap mathematics *)

Section SwapMath.
Variable fee : Fraction.
Local Abbreviation n := (numerator fee).
Local Abbreviation d := (denominator fee).

(** The divisor of the exact-input quote is positive on a pool with a
    positive input reserve. *)
Lemma exact_in_divisor_pos (amount_in reserve_in : Z) :
  0 <= amount_in -> 0 < reserve_in -> 0 <= n <= d -> 0 < d ->
  0 < reserve_in * d + amount_in * (d - n).
Proof.
  intros Ha Hri Hn Hd.
  assert (0 < reserve_in * d) by (apply Z.mul_pos_pos; lia).
  assert (0 <= amount_in * (d - n)) by (apply Z.mul_nonneg_nonneg; lia).
  lia.
Qed.

(** The swap functions raise nothing but [ZeroDivisionError]. *)
Lemma exact_in_raises (amount_in reserve_in reserve_out : Z) (e : exn) :
  constant_product_calc_exact_in amount_in reserve_in reserve_out fee
    = Raise e ->
  e = ZeroDivisionError.
Proof.
  unfold constant_product_calc_exact_in. intros H.
  apply floordiv_raises in H. tauto.
Qed.

Lemma exact_out_raises (amount_out reserve_in reserve_out : Z) (e : exn) :
  constant_product_calc_exact_out amount_out reserve_in reserve_out fee
    = Raise e ->
  e = ZeroDivisionError.
Proof.
  unfold constant_product_calc_exact_out, bind.
  destruct (floordiv _ _) as [q | e'] eqn:E; intros H.
  - discriminate H.
  - inversion H; subst. apply floordiv_raises in E. tauto.
Qed.

(** An exact-output request above the output reserve is answered with a
    non-positive amount. *)
Lemma exact_out_above_reserve (amount_out reserve_in reserve_out : Z) :
  0 < reserve_in -> 0 <= reserve_out -> reserve_out < amount_out ->
  0 <= n < d ->
  exists v,
    constant_product_calc_exact_out amount_out reserve_in reserve_out fee
      = Ok v /\ v <= 0.
Proof.
  intros Hri Hro Hout Hfee.
  unfold constant_product_calc_exact_out.
  assert (Hd : (reserve_out - amount_out) * (d - n) < 0)
    by (apply Z.mul_neg_pos; lia).
  rewrite floordiv_nonzero by lia. cbn [bind].
  eexists; split; [reflexivity |].
  assert (0 < reserve_in * amount_out * d)
    by (repeat apply Z.mul_pos_pos; lia).
  pose proof (div_pos_neg _ _ H Hd). lia.
Qed.

(** C4.  On a pool with a positive input reserve, a non-negative output
    reserve and a fee between 0 and 1, the exact-input quote of a
    non-negative amount returns the documented floor
    [floor(amount_in * feeFactor * reserve_out /
           (reserve_in * denominator + amount_in * feeFactor))],
    which is also the quotient truncated toward zero; an input of 0
    yields 0. *)
Theorem exact_in_is_documented_floor
    (amount_in reserve_in reserve_out : Z) :
  0 <= amount_in -> 0 < reserve_in -> 0 <= reserve_out ->
  0 <= n <= d -> 0 < d ->
  constant_product_calc_exact_in amount_in reserve_in reserve_out fee
    = Ok (spec_amount_out amount_in reserve_in reserve_out fee)
  /\ spec_amount_out amount_in reserve_in reserve_out fee
     = Z.quot (amount_in * (d - n) * reserve_out)
              (reserve_in * d + amount_in * (d - n))
  /\ (amount_in = 0 ->
      constant_product_calc_exact_in amount_in reserve_in reserve_out fee
        = Ok 0).
Proof.
  intros Ha Hri Hro Hn Hd.
  pose proof (exact_in_divisor_pos _ _ Ha Hri Hn Hd) as Hdiv.
  assert (Hnum : 0 <= amount_in * (d - n) * reserve_out)
    by (repeat apply Z.mul_nonneg_nonneg; lia).
  unfold constant_product_calc_exact_in, spec_amount_out.
  cbv zeta. rewrite <- Zdiv_Qdiv.
  rewrite floordiv_nonzero by lia.
  split; [reflexivity | split].
  - symmetry. apply Z.quot_div_nonneg; assumption.
  - intros ->. rewrite !Z.mul_0_l. rewrite Z.div_0_l by lia. reflexivity.
Qed.

(** C6.  For fixed reserves ([reserve_in > 0], [reserve_out >= 0]) and a
    fee between 0 and 1, the exact-input quote is non-decreasing in the
    amount: both quotes return, and the one for the smaller amount is the
    smaller. *)
Theorem exact_in_monotone (a1 a2 reserve_in reserve_out : Z) :
  0 < reserve_in -> 0 <= reserve_out -> 0 <= n <= d -> 0 < d ->
  0 <= a1 <= a2 ->
  exists o1 o2,
    constant_product_calc_exact_in a1 reserve_in reserve_out fee = Ok o1
    /\ constant_product_calc_exact_in a2 reserve_in reserve_out fee = Ok o2
    /\ o1 <= o2.
Proof.
  intros Hri Hro Hn Hd [Ha1 Ha12].
  assert (Hd1 : 0 < reserve_in * d + a1 * (d - n))
    by (apply exact_in_divisor_pos; lia).
  assert (Hd2 : 0 < reserve_in * d + a2 * (d - n))
    by (apply exact_in_divisor_pos; lia).
  unfold constant_product_calc_exact_in.
  rewrite !floordiv_nonzero by lia.
  do 2 eexists. split; [reflexivity | split; [reflexivity |]].
  apply div_le_cross; try assumption.
  assert (Hk : 0 <= (a2 - a1) * ((d - n) * reserve_out * (reserve_in * d))).
  { apply Z.mul_nonneg_nonneg; [lia |].
    repeat apply Z.mul_nonneg_nonneg; lia. }
  lia.
Qed.

(** C8.  With positive reserves and a fee below 1, an exact-output
    request strictly above the output reserve raises nothing: it returns a
    value that is at most 0. *)
Theorem exact_out_beyond_reserve_nonpositive
    (amount_out reserve_in reserve_out : Z) :
  0 < reserve_in -> 0 < reserve_out -> reserve_out < amount_out ->
  0 <= n < d ->
  exists v,
    constant_product_calc_exact_out amount_out reserve_in reserve_out fee
      = Ok v /\ v <= 0.
Proof. intros; apply exact_out_above_reserve; lia. Qed.

(** C9.  With an input reserve of 0, a positive input amount and a fee
    below 1, the exact-input quote raises nothing and returns the whole
    output reserve. *)
Theorem exact_in_empty_input_reserve (amount_in reserve_out : Z) :
  0 < amount_in -> 0 <= reserve_out -> 0 <= n < d ->
  constant_product_calc_exact_in amount_in 0 reserve_out fee
    = Ok reserve_out.
Proof.
  intros Ha Hro Hfee.
  unfold constant_product_calc_exact_in.
  assert (Hdiv : 0 < amount_in * (d - n)) by (apply Z.mul_pos_pos; lia).
  rewrite floordiv_nonzero by lia.
  f_equal. rewrite Z.mul_0_l, Z.add_0_l.
  rewrite (Z.mul_comm (amount_in * (d - n)) reserve_out).
  apply Z.div_mul. lia.
Qed.

(** An exact-output request for the whole output reserve divides by
    zero. *)
Lemma exact_out_whole_reserve (reserve_in reserve_out : Z) :
  constant_product_calc_exact_out reserve_out reserve_in reserve_out fee
    = Raise ZeroDivisionError.
Proof.
  unfold constant_product_calc_exact_out.
  rewrite Z.sub_diag, Z.mul_0_l. reflexivity.
Qed.

(** C2, amended.  With positive reserves and a fee below 1, an
    exact-output request for [amount_out >= reserve_out] never fails with
    [InsufficientReserve]: for [amount_out = reserve_out] it fails with
    [ZeroDivisionError], and for [amount_out > reserve_out] it returns a
    value that is at most 0. *)
Theorem exact_out_at_or_above_reserve
    (amount_out reserve_in reserve_out : Z) :
  0 < reserve_in -> 0 < reserve_out -> 0 <= n < d ->
  reserve_out <= amount_out ->
  constant_product_calc_exact_out amount_out reserve_in reserve_out fee
    <> Raise InsufficientReserve
  /\ (amount_out = reserve_out ->
      constant_product_calc_exact_out amount_out reserve_in reserve_out fee
        = Raise ZeroDivisionError)
  /\ (reserve_out < amount_out ->
      exists v,
        constant_product_calc_exact_out amount_out reserve_in reserve_out
          fee = Ok v /\ v <= 0).
Proof.
  intros Hri Hro Hfee Hout. split; [| split].
  - intros H. apply exact_out_raises in H. discriminate H.
  - intros ->. apply exact_out_whole_reserve.
  - intros Hlt. apply exact_out_above_reserve; lia.
Qed.

(** C3, amended.  With [reserve_in = 0] or [reserve_out = 0]
    (non-negative amount and reserves, fee below 1) neither swap function
    fails with [UninitializedPool].  Each one returns the value of its
    formula, or fails with [ZeroDivisionError] where its divisor is 0:
    the exact-input quote on [reserve_in = 0] fails for an amount of 0 and
    returns [reserve_out] for a positive amount, and on [reserve_in > 0],
    [reserve_out = 0] it returns 0; the exact-output quote fails when
    the amount equals [reserve_out], returns 1 on [reserve_in = 0] for
    any other amount, and returns a value that is at most 0 on
    [reserve_out = 0 < reserve_in] for a positive amount. *)
Theorem zero_reserve_outcomes (amount reserve_in reserve_out : Z) :
  0 <= amount -> 0 <= reserve_in -> 0 <= reserve_out -> 0 <= n < d ->
  reserve_in = 0 \/ reserve_out = 0 ->
  (constant_product_calc_exact_in amount reserve_in reserve_out fee
     <> Raise UninitializedPool
   /\ constant_product_calc_exact_out amount reserve_in reserve_out fee
     <> Raise UninitializedPool)
  /\ (reserve_in = 0 -> amount = 0 ->
      constant_product_calc_exact_in amount reserve_in reserve_out fee
        = Raise ZeroDivisionError)
  /\ (reserve_in = 0 -> 0 < amount ->
      constant_product_calc_exact_in amount reserve_in reserve_out fee
        = Ok reserve_out)
  /\ (0 < reserve_in -> reserve_out = 0 ->
      constant_product_calc_exact_in amount reserve_in reserve_out fee
        = Ok 0)
  /\ (amount = reserve_out ->
      constant_product_calc_exact_out amount reserve_in reserve_out fee
        = Raise ZeroDivisionError)
  /\ (reserve_in = 0 -> amount <> reserve_out ->
      constant_product_calc_exact_out amount reserve_in reserve_out fee
        = Ok 1)
  /\ (0 < reserve_in -> reserve_out = 0 -> 0 < amount ->
      exists v,
        constant_product_calc_exact_out amount reserve_in reserve_out fee
          = Ok v /\ v <= 0).
Proof.
  intros Ha Hri Hro Hfee Hzero.
  repeat match goal with |- _ /\ _ => split end.
  - intros H. apply exact_in_raises in H. discriminate H.
  - intros H. apply exact_out_raises in H. discriminate H.
  - intros -> ->. reflexivity.
  - intros -> Hpos.
    unfold constant_product_calc_exact_in.
    assert (0 < amount * (d - n)) by (apply Z.mul_pos_pos; lia).
    rewrite floordiv_nonzero by lia. f_equal.
    rewrite Z.mul_0_l, Z.add_0_l.
    rewrite (Z.mul_comm (amount * (d - n)) reserve_out).
    apply Z.div_mul. lia.
  - intros Hpos ->.
    unfold constant_product_calc_exact_in.
    assert (0 < reserve_in * d + amount * (d - n))
      by (apply exact_in_divisor_pos; lia).
    rewrite floordiv_nonzero by lia.
    rewrite Z.mul_0_r. rewrite Z.div_0_l by lia. reflexivity.
  - intros ->. apply exact_out_whole_reserve.
  - intros -> Hne.
    unfold constant_product_calc_exact_out.
    assert ((reserve_out - amount) * (d - n) <> 0)
      by (apply Z.neq_mul_0; lia).
    rewrite floordiv_nonzero by assumption. cbn [bind].
    rewrite !Z.mul_0_l. rewrite Z.div_0_l by assumption. reflexivity.
  - intros Hpos -> Hamt. apply exact_out_above_reserve; lia.
Qed.

(** X1.  What the [+1] of the exact-output quote buys: for a request
    below the output reserve, on a positive input reserve and with a fee
    below 1, the quote is positive and paying it on the same reserves
    yields at least the requested output. *)
Lemma exact_out_quote_suffices (amount_out reserve_in reserve_out : Z) :
  0 <= amount_out < reserve_out -> 0 < reserve_in -> 0 <= n < d ->
  exists q out',
    constant_product_calc_exact_out amount_out reserve_in reserve_out fee
      = Ok q
    /\ 0 < q
    /\ constant_product_calc_exact_in q reserve_in reserve_out fee
       = Ok out'
    /\ amount_out <= out'.
Proof.
  intros Hout Hri Hfee.
  assert (HD : 0 < (reserve_out - amount_out) * (d - n))
    by (apply Z.mul_pos_pos; lia).
  assert (HX : 0 <= reserve_in * amount_out * d)
    by (repeat apply Z.mul_nonneg_nonneg; lia).
  unfold constant_product_calc_exact_out.
  rewrite floordiv_nonzero by lia. cbn [bind].
  set (k := reserve_in * amount_out * d
            / ((reserve_out - amount_out) * (d - n))).
  assert (Hk : 0 <= k) by (apply Z.div_pos; lia).
  pose proof (Z.mul_succ_div_gt (reserve_in * amount_out * d) _ HD) as Hgt.
  fold k in Hgt. unfold Z.succ in Hgt.
  assert (Hdiv : 0 < reserve_in * d + (1 + k) * (d - n))
    by (apply exact_in_divisor_pos; lia).
  exists (1 + k). eexists.
  split; [reflexivity | split; [lia |]].
  unfold constant_product_calc_exact_in.
  rewrite floordiv_nonzero by lia.
  split; [reflexivity |].
  apply Z.div_le_lower_bound; [assumption | lia].
Qed.

(** X2.  Conversely, on unchanged positive reserves the exact-output
    quote of what an input bought is between 1 and that input plus one. *)
Lemma exact_in_quote_bounded (amount_in reserve_in reserve_out out : Z) :
  0 < amount_in -> 0 < reserve_in -> 0 < reserve_out -> 0 <= n < d ->
  constant_product_calc_exact_in amount_in reserve_in reserve_out fee
    = Ok out ->
  exists q,
    constant_product_calc_exact_out out reserve_in reserve_out fee = Ok q
    /\ 1 <= q <= amount_in + 1.
Proof.
  intros Ha Hri Hro Hfee Hin.
  assert (Hd1 : 0 < reserve_in * d + amount_in * (d - n))
    by (apply exact_in_divisor_pos; lia).
  unfold constant_product_calc_exact_in in Hin.
  rewrite floordiv_nonzero in Hin by lia.
  injection Hin as Hout.
  assert (Hnum : 0 <= amount_in * (d - n) * reserve_out)
    by (repeat apply Z.mul_nonneg_nonneg; lia).
  assert (Hout0 : 0 <= out) by (rewrite <- Hout; apply Z.div_pos; lia).
  assert (Hlt : out < reserve_out).
  { rewrite <- Hout. apply Z.div_lt_upper_bound; [assumption |].
    assert (0 < reserve_in * d * reserve_out)
      by (repeat apply Z.mul_pos_pos; lia).
    lia. }
  pose proof (Z.mul_div_le (amount_in * (d - n) * reserve_out) _ Hd1)
    as Hle.
  rewrite Hout in Hle.
  assert (HD : 0 < (reserve_out - out) * (d - n))
    by (apply Z.mul_pos_pos; lia).
  unfold constant_product_calc_exact_out.
  rewrite floordiv_nonzero by lia. cbn [bind].
  eexists; split; [reflexivity |].
  assert (0 <= reserve_in * out * d / ((reserve_out - out) * (d - n))).
  { apply Z.div_pos; [| assumption].
    repeat apply Z.mul_nonneg_nonneg; lia. }
  assert (reserve_in * out * d / ((reserve_out - out) * (d - n))
          <= amount_in).
  { apply Z.div_le_upper_bound; [assumption | lia]. }
  lia.
Qed.

(** C1, amended.  Let [out] be the exact-input quote of
    [amount_in > 0] on positive reserves with a fee below 1, and [r] the
    remainder left by the division of that quote.  The exact-output quote
    of [out] on the reserves [(reserve_in + amount_in, reserve_out - out)]
    returns a value that is at least [amount_in] if and only if
    [2 * out < reserve_out] and
    [r <= reserve_out * (d - n) + amount_in * n * out
          + 2 * (amount_in - 1) * out * (d - n)]. *)
Theorem rounding_safety_exactly_when
    (amount_in reserve_in reserve_out out : Z) :
  0 < amount_in -> 0 < reserve_in -> 0 < reserve_out -> 0 <= n < d ->
  constant_product_calc_exact_in amount_in reserve_in reserve_out fee
    = Ok out ->
  (exists q,
     constant_product_calc_exact_out
       out (reserve_in + amount_in) (reserve_out - out) fee = Ok q
     /\ amount_in <= q)
  <-> (2 * out < reserve_out
       /\ (amount_in * (d - n) * reserve_out)
            mod (reserve_in * d + amount_in * (d - n))
          <= reserve_out * (d - n) + amount_in * n * out
             + 2 * (amount_in - 1) * out * (d - n)).
Proof.
  intros Ha Hri Hro Hfee Hin.
  assert (Hd1 : 0 < reserve_in * d + amount_in * (d - n))
    by (apply exact_in_divisor_pos; lia).
  unfold constant_product_calc_exact_in in Hin.
  rewrite floordiv_nonzero in Hin by lia.
  injection Hin as Hout.
  assert (Hnum : 0 <= amount_in * (d - n) * reserve_out)
    by (repeat apply Z.mul_nonneg_nonneg; lia).
  assert (Hout0 : 0 <= out)
    by (rewrite <- Hout; apply Z.div_pos; lia).
  pose proof (Z.div_mod (amount_in * (d - n) * reserve_out)
                (reserve_in * d + amount_in * (d - n))) as Heq.
  specialize (Heq ltac:(lia)). rewrite Hout in Heq.
  set (r := (amount_in * (d - n) * reserve_out)
              mod (reserve_in * d + amount_in * (d - n))) in *.
  unfold constant_product_calc_exact_out.
  split.
  - (* the round trip holds: read the two conditions off the quotient *)
    intros [q [Hq Hge]].
    destruct (Z.lt_trichotomy (reserve_out - out - out) 0)
      as [Hneg | [Hzero | Hpos]].
    + (* a negative divisor gives a non-positive quote *)
      assert (HD2 : (reserve_out - out - out) * (d - n) < 0)
        by (apply Z.mul_neg_pos; lia).
      rewrite floordiv_nonzero in Hq by lia. cbn [bind] in Hq.
      assert (HX : 0 < (reserve_in + amount_in) * out * d)
        by (repeat apply Z.mul_pos_pos; lia).
      pose proof (div_pos_neg _ _ HX HD2) as Hdiv.
      assert (Hq' : 1 + (reserve_in + amount_in) * out * d
                        / ((reserve_out - out - out) * (d - n)) = q)
        by congruence.
      lia.
    + (* a zero divisor raises *)
      rewrite Hzero, Z.mul_0_l in Hq. discriminate Hq.
    + assert (HD2 : 0 < (reserve_out - out - out) * (d - n))
        by (apply Z.mul_pos_pos; lia).
      rewrite floordiv_nonzero in Hq by lia. cbn [bind] in Hq.
      set (k := (reserve_in + amount_in) * out * d
                / ((reserve_out - out - out) * (d - n))) in *.
      assert (Hqk : 1 + k = q) by congruence.
      pose proof (Z.mul_div_le ((reserve_in + amount_in) * out * d) _ HD2)
        as Hle.
      fold k in Hle.
      assert (Hmono : (reserve_out - out - out) * (d - n) * (amount_in - 1)
                      <= (reserve_out - out - out) * (d - n) * k)
        by (apply Z.mul_le_mono_nonneg_l; lia).
      split; lia.
  - (* the two conditions give the round trip *)
    intros [Hhalf Hrem].
    assert (HD2 : 0 < (reserve_out - out - out) * (d - n))
      by (apply Z.mul_pos_pos; lia).
    rewrite floordiv_nonzero by lia. cbn [bind].
    eexists; split; [reflexivity |].
    assert (amount_in - 1
            <= (reserve_in + amount_in) * out * d
               / ((reserve_out - out - out) * (d - n))); [| lia].
    apply Z.div_le_lower_bound; [assumption | lia].
Qed.

End SwapMath.

(** *** Concrete quotes *)

Example fee_3_1000_normalised : Fraction_normalised fee_3_1000.
Proof. split; reflexivity. Qed.

Example exact_in_golden :
  constant_product_calc_exact_in 1000 1000000 1000000 fee_3_1000 = Ok 996.
Proof. reflexivity. Qed.

Lemma exact_in_is_documented_floor_witness :
  constant_product_calc_exact_in 1000 1000000 1000000 fee_3_1000
    = Ok (spec_amount_out 1000 1000000 1000000 fee_3_1000)
  /\ spec_amount_out 1000 1000000 1000000 fee_3_1000
     = Z.quot (1000 * (1000 - 3) * 1000000)
              (1000000 * 1000 + 1000 * (1000 - 3))
  /\ (1000 = 0 ->
      constant_product_calc_exact_in 1000 1000000 1000000 fee_3_1000
        = Ok 0).
Proof.
  apply (exact_in_is_documented_floor fee_3_1000 1000 1000000 1000000);
    cbn; lia.
Defined.

Lemma exact_in_monotone_witness :
  exists o1 o2,
    constant_product_calc_exact_in 1000 1000000 1000000 fee_3_1000 = Ok o1
    /\ constant_product_calc_exact_in 2000 1000000 1000000 fee_3_1000 = Ok o2
    /\ o1 <= o2.
Proof.
  apply (exact_in_monotone fee_3_1000 1000 2000 1000000 1000000); cbn; lia.
Defined.

Lemma exact_out_beyond_reserve_nonpositive_witness :
  exists v, constant_product_calc_exact_out 2 1 1 fee_3_1000 = Ok v /\ v <= 0.
Proof.
  apply (exact_out_beyond_reserve_nonpositive fee_3_1000 2 1 1); cbn; lia.
Defined.

Lemma exact_in_empty_input_reserve_witness :
  constant_product_calc_exact_in 1 0 5 fee_3_1000 = Ok 5.
Proof.
  apply (exact_in_empty_input_reserve fee_3_1000 1 5); cbn; lia.
Defined.

(** C2, counterexample.  On the pool (1, 1) with the 0.3% fee, asking for 2
    out of a reserve of 1 returns -2, and asking for exactly the reserve
    raises [ZeroDivisionError]: neither call fails with
    [InsufficientReserve]. *)
Lemma exact_out_no_InsufficientReserve :
  (2 >= 1 /\ 1 >= 1)
  /\ constant_product_calc_exact_out 2 1 1 fee_3_1000 = Ok (-2)
  /\ constant_product_calc_exact_out 1 1 1 fee_3_1000
     = Raise ZeroDivisionError
  /\ constant_product_calc_exact_out 2 1 1 fee_3_1000
     <> Raise InsufficientReserve
  /\ constant_product_calc_exact_out 1 1 1 fee_3_1000
     <> Raise InsufficientReserve.
Proof.
  split; [lia |].
  repeat split; try reflexivity; discriminate.
Qed.

Lemma exact_out_at_or_above_reserve_witness :
  constant_product_calc_exact_out 2 1 1 fee_3_1000
    <> Raise InsufficientReserve
  /\ (2 = 1 ->
      constant_product_calc_exact_out 2 1 1 fee_3_1000
        = Raise ZeroDivisionError)
  /\ (1 < 2 ->
      exists v,
        constant_product_calc_exact_out 2 1 1 fee_3_1000 = Ok v /\ v <= 0).
Proof.
  apply (exact_out_at_or_above_reserve fee_3_1000 2 1 1); cbn; lia.
Defined.

(** C3, counterexample.  With [reserve_in = 0] and an output reserve of 5,
    the exact-input quote of 1 returns 5 and the exact-output quote of 1
    returns 1; with [reserve_out = 0] on an input reserve of 5 the
    exact-input quote of 1 returns 0.  None fails with
    [UninitializedPool]. *)
Lemma zero_reserve_no_UninitializedPool :
  constant_product_calc_exact_in 1 0 5 fee_3_1000 = Ok 5
  /\ constant_product_calc_exact_out 1 0 5 fee_3_1000 = Ok 1
  /\ constant_product_calc_exact_in 1 5 0 fee_3_1000 = Ok 0
  /\ constant_product_calc_exact_in 1 0 5 fee_3_1000
     <> Raise UninitializedPool
  /\ constant_product_calc_exact_out 1 0 5 fee_3_1000
     <> Raise UninitializedPool
  /\ constant_product_calc_exact_in 1 5 0 fee_3_1000
     <> Raise UninitializedPool.
Proof. repeat split; try reflexivity; discriminate. Qed.

Lemma zero_reserve_outcomes_witness :
  constant_product_calc_exact_in 1 0 5 fee_3_1000 = Ok 5
  /\ constant_product_calc_exact_out 1 0 5 fee_3_1000 = Ok 1.
Proof.
  pose proof (zero_reserve_outcomes fee_3_1000 1 0 5
                ltac:(lia) ltac:(lia) ltac:(lia) ltac:(cbn; lia)
                (or_introl eq_refl)) as H.
  split.
  - apply H; [reflexivity | lia].
  - apply H; [reflexivity | lia].
Defined.

(** C1, counterexample.  On the pool (1000, 1) with the 0.3% fee an input
    of 2 buys 0; the exact-output quote of 0 on the reserves after the swap,
    (1002, 1), is 1, which is below the original input of 2. *)
Lemma rounding_safety_fails :
  (0 < 2 /\ 0 < 1000 /\ 0 < 1
   /\ 0 <= numerator fee_3_1000 < denominator fee_3_1000)
  /\ constant_product_calc_exact_in 2 1000 1 fee_3_1000 = Ok 0
  /\ constant_product_calc_exact_out 0 (1000 + 2) (1 - 0) fee_3_1000 = Ok 1
  /\ ~ (exists q,
          constant_product_calc_exact_out 0 (1000 + 2) (1 - 0) fee_3_1000
            = Ok q
          /\ q >= 2).
Proof.
  split; [cbn; lia |].
  split; [reflexivity | split; [reflexivity |]].
  intros [q [Hq Hge]]. vm_compute in Hq. injection Hq as <-. lia.
Qed.

Example round_trip_large_trade :
  round_trip 1000000 1000000000 1000000 fee_3_1000 = Ok 1001992.
Proof. reflexivity. Qed.

Lemma rounding_safety_exactly_when_witness :
  (exists q,
     constant_product_calc_exact_out
       996 (1000000000 + 1000000) (1000000 - 996) fee_3_1000 = Ok q
     /\ 1000000 <= q)
  <-> (2 * 996 < 1000000
       /\ (1000000 * (1000 - 3) * 1000000)
            mod (1000000000 * 1000 + 1000000 * (1000 - 3))
          <= 1000000 * (1000 - 3) + 1000000 * 3 * 996
             + 2 * (1000000 - 1) * 996 * (1000 - 3)).
Proof.
  apply (rounding_safety_exactly_when fee_3_1000
           1000000 1000000000 1000000 996);
    try (cbn; lia).
  reflexivity.
Defined.

(** ** Pool address derivation *)

Lemma to_N_inj (x y : byte) : Byte.to_N x = Byte.to_N y -> x = y.
Proof.
  intros E.
  assert (S : Some x = Some y)
    by (rewrite <- (Byte.of_to_N x), <- (Byte.of_to_N y), E; reflexivity).
  now injection S.
Qed.

(** [<] on [bytes] is asymmetric, and two values that are not ordered
    either way are the same value. *)
Lemma bytes_lt_asym (a b : bytes) :
  bytes_lt a b = true -> bytes_lt b a = false.
Proof.
  revert b. induction a as [| x a IH]; intros [| y b] H; cbn in *;
    try reflexivity; try discriminate.
  destruct (N.ltb_spec (Byte.to_N x) (Byte.to_N y)) as [Hxy | Hxy];
    destruct (N.ltb_spec (Byte.to_N y) (Byte.to_N x)) as [Hyx | Hyx];
    try reflexivity; try discriminate; try lia.
  now apply IH.
Qed.

Lemma bytes_lt_total (a b : bytes) :
  bytes_lt a b = false -> bytes_lt b a = false -> a = b.
Proof.
  revert b. induction a as [| x a IH]; intros [| y b] Hab Hba; cbn in *;
    try reflexivity; try discriminate.
  destruct (N.ltb_spec (Byte.to_N x) (Byte.to_N y)) as [Hxy | Hxy];
    destruct (N.ltb_spec (Byte.to_N y) (Byte.to_N x)) as [Hyx | Hyx];
    try discriminate.
  assert (x = y) by (apply to_N_inj; lia). subst y.
  f_equal. now apply IH.
Qed.

(** Sorting a pair does not depend on the order it is given in. *)
Lemma sorted_pair_comm (a b : bytes) : sorted [a; b] = sorted [b; a].
Proof.
  cbn.
  destruct (bytes_lt b a) eqn:Hba.
  - now rewrite (bytes_lt_asym _ _ Hba).
  - destruct (bytes_lt a b) eqn:Hab; [reflexivity |].
    now rewrite (bytes_lt_total _ _ Hab Hba).
Qed.

(** The sorted pair has the smaller address first. *)
Lemma sorted_pair_ordered (a b x y : bytes) :
  sorted [a; b] = [x; y] -> bytes_lt y x = false.
Proof.
  cbn. destruct (bytes_lt b a) eqn:Hba; intros E; injection E as <- <-.
  - now apply bytes_lt_asym.
  - assumption.
Qed.

Section AddressDeriver.
Context `{libraries : EthLibraries}.

(** C5.  For every deployer address, init-code hash and pair of token
    addresses [A], [B] that [HexBytes] accepts (20-byte values among
    them), the derived pool address is the same for [[A; B]] and
    [[B; A]]. *)
Theorem pool_address_order_independent
    (deployer init_hash A B : str_or_bytes) (a b : bytes) :
  HexBytes A = Ok a -> HexBytes B = Ok b ->
  generate_v2_pool_address deployer [A; B] init_hash
  = generate_v2_pool_address deployer [B; A] init_hash.
Proof.
  intros HA HB. unfold generate_v2_pool_address.
  cbn [comprehension]. rewrite HA, HB. cbn [bind].
  now rewrite (sorted_pair_comm a b).
Qed.

End AddressDeriver.

Example generate_v2_pool_address_runs :
  @generate_v2_pool_address plain_libraries
    (Bytes [x00])
    [Bytes (List.repeat xaa 20); Bytes (List.repeat x01 20)]
    (Bytes [x00])
  = Ok (String.string_of_list_byte
          (List.repeat x01 20 ++ List.repeat xaa 20)).
Proof. reflexivity. Qed.

Lemma pool_address_order_independent_witness :
  @generate_v2_pool_address plain_libraries
    (Bytes [x00])
    [Bytes (List.repeat xaa 20); Bytes (List.repeat x01 20)]
    (Bytes [x00])
  = @generate_v2_pool_address plain_libraries
      (Bytes [x00])
      [Bytes (List.repeat x01 20); Bytes (List.repeat xaa 20)]
      (Bytes [x00]).
Proof.
  apply (@pool_address_order_independent plain_libraries
           (Bytes [x00]) (Bytes [x00])
           (Bytes (List.repeat xaa 20)) (Bytes (List.repeat x01 20))
           (List.repeat xaa 20) (List.repeat x01 20)); reflexivity.
Defined.

(** ** Path resolution *)

(** The [i]-th consecutive pair of a path is made of its [i]-th and
    [i+1]-th tokens. *)
Lemma nth_error_pairwise {A : Type} (l : list A) (i : nat) (a b : A) :
  nth_error (pairwise l) i = Some (a, b)
  <-> nth_error l i = Some a /\ nth_error l (S i) = Some b.
Proof.
  revert i. induction l as [| x l IH]; intros i.
  - destruct i; cbn; split; intros H; try discriminate; destruct H;
      discriminate.
  - destruct l as [| y l].
    + destruct i as [| [| i]]; cbn; split; intros H; try discriminate;
        destruct H; discriminate.
    + destruct i as [| i].
      * cbn. split.
        -- intros H. injection H as <- <-. auto.
        -- intros [Ha Hb]. injection Ha as <-. injection Hb as <-.
           reflexivity.
      * change (pairwise (x :: y :: l)) with ((x, y) :: pairwise (y :: l)).
        cbn [nth_error]. apply IH.
Qed.

Lemma length_pairwise {A : Type} (l : list A) :
  List.length (pairwise l) = Nat.pred (List.length l).
Proof.
  induction l as [| x [| y l] IH]; try reflexivity.
  change (pairwise (x :: y :: l)) with ((x, y) :: pairwise (y :: l)).
  cbn [List.length] in *. now rewrite IH.
Qed.

Section PathResolver.
Variable Pool : Type.
Variable pool_manager : UniswapV2PoolManager Pool.

(** The call the loop makes for a pair. *)
Local Abbreviation asks p := (mkLookup p true).


(** When every lookup returns, the loop returns the pools in path order
    after one call per pair. *)
Lemma resolve_loop_returns
    (pairs : list (ChecksumAddress * ChecksumAddress))
    (found : ChecksumAddress * ChecksumAddress -> Pool) :
  (forall log q, In q pairs ->
     get_pool_from_tokens pool_manager log (asks q) = Ok (found q)) ->
  forall acc log,
    resolve_loop pool_manager pairs acc log
    = (Ok (acc ++ map found pairs),
       log ++ map (fun x => asks x) pairs).
Proof.
  induction pairs as [| p0 pairs IH]; intros Hall acc log.
  - cbn. now rewrite !app_nil_r.
  - cbn [resolve_loop]. unfold bindC at 1, call_get_pool_from_tokens.
    rewrite (Hall log p0 (or_introl eq_refl)).
    rewrite IH by (intros; apply Hall; now right).
    cbn [map]. now rewrite <- !app_assoc.
Qed.


(** C10.  A path of fewer than two addresses resolves to the empty list
    without a single call to the manager. *)
Theorem short_path_resolves_to_nothing (tx_path : list ChecksumAddress) :
  (List.length tx_path < 2)%nat ->
  get_v2_pools_from_token_path tx_path pool_manager = (Ok [], []).
Proof.
  intros Hlen. destruct tx_path as [| a [| b l]]; try reflexivity.
  cbn in Hlen. lia.
Qed.

End PathResolver.

(** *** Concrete routes *)

(** A route whose hops all resolve. *)
Example two_hop_route_resolves :
  get_v2_pools_from_token_path ["A"; "B"]%string three_hop_manager
  = (Ok [1%nat], [mkLookup ("A", "B")%string true]).
Proof. reflexivity. Qed.

(** The route A, B, C, D has no pool for its middle hop: the resolution
    fails there and never asks for C/D. *)
Example middle_hop_unresolvable :
  get_v2_pools_from_token_path ["A"; "B"; "C"; "D"]%string three_hop_manager
  = (Raise (PoolNotFound "B" "C"),
     [mkLookup ("A", "B")%string true; mkLookup ("B", "C")%string true]).
Proof. reflexivity. Qed.


Lemma short_path_resolves_to_nothing_witness :
  get_v2_pools_from_token_path ["A"%string] three_hop_manager = (Ok [], [])
  /\ get_v2_pools_from_token_path [] three_hop_manager = (Ok [], []).
Proof.
  split.
  - apply (short_path_resolves_to_nothing nat three_hop_manager
             ["A"%string]).
    cbn. lia.
  - apply (short_path_resolves_to_nothing nat three_hop_manager []).
    cbn. lia.
Defined.

(** * Further properties of the swap formulas *)

Section SwapInvariants.
Variable fee : Fraction.
Local Abbreviation n := (numerator fee).
Local Abbreviation d := (denominator fee).

(** What a returned exact-input quote satisfies: the defining inequality of
    the floor, and, on positive reserves, that it is non-negative and below
    the output reserve. *)
Lemma exact_in_floor_facts (amount_in reserve_in reserve_out out : Z) :
  0 <= amount_in -> 0 < reserve_in -> 0 < reserve_out ->
  0 <= n <= d -> 0 < d ->
  constant_product_calc_exact_in amount_in reserve_in reserve_out fee
    = Ok out ->
  0 <= out < reserve_out
  /\ (reserve_in * d + amount_in * (d - n)) * out
     <= amount_in * (d - n) * reserve_out.
Proof.
  intros Ha Hri Hro Hn Hd Hin.
  assert (Hd1 : 0 < reserve_in * d + amount_in * (d - n))
    by (apply exact_in_divisor_pos; lia).
  unfold constant_product_calc_exact_in in Hin.
  rewrite floordiv_nonzero in Hin by lia.
  injection Hin as Hout.
  assert (Hnum : 0 <= amount_in * (d - n) * reserve_out)
    by (repeat apply Z.mul_nonneg_nonneg; lia).
  pose proof (Z.mul_div_le (amount_in * (d - n) * reserve_out) _ Hd1) as Hle.
  rewrite Hout in Hle.
  split; [split |].
  - rewrite <- Hout. apply Z.div_pos; lia.
  - rewrite <- Hout. apply Z.div_lt_upper_bound; [assumption |].
    assert (0 < reserve_in * d * reserve_out)
      by (repeat apply Z.mul_pos_pos; lia).
    lia.
  - exact Hle.
Qed.

(** X3.  On positive reserves with a fee between 0 and 1, an exact-input
    swap never drains the pool and never lowers the constant product: the
    output is in [[0, reserve_out)], the fee-adjusted product
    [(reserve_in * d + amount_in * (d - n)) * (reserve_out - out)] is at
    least [reserve_in * reserve_out * d], and the plain product of the
    reserves after the swap is at least the product before it. *)
Theorem exact_in_keeps_constant_product
    (amount_in reserve_in reserve_out out : Z) :
  0 <= amount_in -> 0 < reserve_in -> 0 < reserve_out ->
  0 <= n <= d -> 0 < d ->
  constant_product_calc_exact_in amount_in reserve_in reserve_out fee
    = Ok out ->
  0 <= out < reserve_out
  /\ reserve_in * reserve_out * d
     <= (reserve_in * d + amount_in * (d - n)) * (reserve_out - out)
  /\ reserve_in * reserve_out
     <= (reserve_in + amount_in) * (reserve_out - out).
Proof.
  intros Ha Hri Hro Hn Hd Hin.
  destruct (exact_in_floor_facts _ _ _ _ Ha Hri Hro Hn Hd Hin)
    as [[Hout0 Hlt] Hle].
  split; [lia | split; [lia |]].
  assert (Hprod : 0 <= out * reserve_in) by (apply Z.mul_nonneg_nonneg; lia).
  destruct (Z.eq_dec (d - n) 0) as [Hf | Hf].
  - rewrite Hf in Hle. rewrite Z.mul_0_r, Z.add_0_r, Z.mul_0_l in Hle.
    assert (out = 0) by nia. subst out.
    assert (0 <= amount_in * reserve_out)
      by (apply Z.mul_nonneg_nonneg; lia).
    lia.
  - assert (Hf' : 0 < d - n) by lia.
    assert (Hfd : out * reserve_in * (d - n) <= out * reserve_in * d)
      by (apply Z.mul_le_mono_nonneg_l; lia).
    assert (Hmul : (d - n) * (out * (reserve_in + amount_in))
                   <= (d - n) * (amount_in * reserve_out)) by lia.
    apply Z.mul_le_mono_pos_l in Hmul; [lia | assumption].
Qed.

(** X4.  The exact-output quote is tight: paying one unit less than the
    quoted input yields no more than the requested output on the same
    reserves. *)
Theorem exact_out_quote_tight (amount_out reserve_in reserve_out q : Z) :
  0 <= amount_out < reserve_out -> 0 < reserve_in -> 0 <= n < d ->
  constant_product_calc_exact_out amount_out reserve_in reserve_out fee
    = Ok q ->
  exists out',
    constant_product_calc_exact_in (q - 1) reserve_in reserve_out fee
      = Ok out'
    /\ out' <= amount_out.
Proof.
  intros Hout Hri Hfee Hq.
  assert (HD : 0 < (reserve_out - amount_out) * (d - n))
    by (apply Z.mul_pos_pos; lia).
  assert (HX : 0 <= reserve_in * amount_out * d)
    by (repeat apply Z.mul_nonneg_nonneg; lia).
  unfold constant_product_calc_exact_out in Hq.
  rewrite floordiv_nonzero in Hq by lia. cbn [bind] in Hq.
  set (k := reserve_in * amount_out * d
            / ((reserve_out - amount_out) * (d - n))) in *.
  assert (Hqk : 1 + k = q) by congruence. clear Hq.
  assert (Hk : 0 <= k) by (apply Z.div_pos; lia).
  pose proof (Z.mul_div_le (reserve_in * amount_out * d) _ HD) as Hle.
  fold k in Hle.
  replace (q - 1) with k by lia.
  assert (Hdiv : 0 < reserve_in * d + k * (d - n))
    by (apply exact_in_divisor_pos; lia).
  unfold constant_product_calc_exact_in.
  rewrite floordiv_nonzero by lia.
  eexists; split; [reflexivity |].
  apply Z.div_le_upper_bound; [assumption | lia].
Qed.

(** X5.  For fixed reserves and fee, the exact-output quote is
    non-decreasing in the requested amount, as long as the amounts stay
    below the output reserve. *)
Theorem exact_out_monotone (o1 o2 reserve_in reserve_out : Z) :
  0 <= reserve_in -> 0 <= n < d -> 0 <= o1 <= o2 -> o2 < reserve_out ->
  exists q1 q2,
    constant_product_calc_exact_out o1 reserve_in reserve_out fee = Ok q1
    /\ constant_product_calc_exact_out o2 reserve_in reserve_out fee = Ok q2
    /\ q1 <= q2.
Proof.
  intros Hri Hfee [Ho1 Ho12] Ho2.
  assert (HD1 : 0 < (reserve_out - o1) * (d - n))
    by (apply Z.mul_pos_pos; lia).
  assert (HD2 : 0 < (reserve_out - o2) * (d - n))
    by (apply Z.mul_pos_pos; lia).
  unfold constant_product_calc_exact_out.
  rewrite !floordiv_nonzero by lia. cbn [bind].
  do 2 eexists. split; [reflexivity | split; [reflexivity |]].
  apply Z.add_le_mono_l.
  apply div_le_cross; try assumption.
  assert (Hk : 0 <= reserve_in * d * (d - n) * ((o2 - o1) * reserve_out)).
  { repeat apply Z.mul_nonneg_nonneg; lia. }
  lia.
Qed.

(** X6.  For a fixed amount and fee, the exact-input quote is
    non-decreasing in the output reserve and non-increasing in the input
    reserve. *)
Theorem exact_in_monotone_in_reserves
    (amount_in ri ri' ro ro' : Z) :
  0 <= amount_in -> 0 <= n <= d -> 0 < d ->
  0 < ri <= ri' -> 0 <= ro <= ro' ->
  exists low mid high,
    constant_product_calc_exact_in amount_in ri' ro fee = Ok low
    /\ constant_product_calc_exact_in amount_in ri ro fee = Ok mid
    /\ constant_product_calc_exact_in amount_in ri ro' fee = Ok high
    /\ low <= mid <= high.
Proof.
  intros Ha Hn Hd [Hri Hri'] [Hro Hro'].
  assert (Hd1 : 0 < ri * d + amount_in * (d - n))
    by (apply exact_in_divisor_pos; lia).
  assert (Hd2 : 0 < ri' * d + amount_in * (d - n))
    by (apply exact_in_divisor_pos; lia).
  assert (Hf : 0 <= amount_in * (d - n))
    by (apply Z.mul_nonneg_nonneg; lia).
  unfold constant_product_calc_exact_in.
  rewrite !floordiv_nonzero by lia.
  do 3 eexists. repeat (split; [reflexivity |]).
  split.
  - apply Z.div_le_compat_l.
    + apply Z.mul_nonneg_nonneg; lia.
    + split; [assumption |].
      apply Z.add_le_mono_r. apply Z.mul_le_mono_nonneg_r; lia.
  - apply Z.div_le_mono; [assumption |].
    apply Z.mul_le_mono_nonneg_l; lia.
Qed.

(** X7.  The only exception either swap function raises is
    [ZeroDivisionError], and it is raised exactly when the divisor is zero:
    for the exact-input quote when
    [reserve_in * d + amount_in * (d - n) = 0], for the exact-output quote
    when the amount equals the output reserve or the fee is 1. *)
Theorem swap_raises_iff_zero_divisor
    (amount reserve_in reserve_out : Z) (e : exn) :
  (constant_product_calc_exact_in amount reserve_in reserve_out fee
     = Raise e
   <-> e = ZeroDivisionError /\ reserve_in * d + amount * (d - n) = 0)
  /\ (constant_product_calc_exact_out amount reserve_in reserve_out fee
        = Raise e
      <-> e = ZeroDivisionError /\ (amount = reserve_out \/ n = d)).
Proof.
  split; split.
  - intros H. unfold constant_product_calc_exact_in in H.
    now apply floordiv_raises in H.
  - intros [-> H0]. unfold constant_product_calc_exact_in.
    rewrite H0. reflexivity.
  - intros H. unfold constant_product_calc_exact_out, bind in H.
    destruct (floordiv _ _) as [q | e'] eqn:E; [discriminate H |].
    injection H as ->. apply floordiv_raises in E.
    destruct E as [-> E]. split; [reflexivity |].
    apply Z.eq_mul_0 in E. lia.
  - intros [-> H0]. unfold constant_product_calc_exact_out.
    assert (E : (reserve_out - amount) * (d - n) = 0)
      by (apply Z.eq_mul_0; lia).
    rewrite E. reflexivity.
Qed.

(** X8.  Swapping in and straight back never pays: if [amount_in] buys
    [out] on the reserves [(reserve_in, reserve_out)], then selling [out]
    on the reserves after that swap, [(reserve_out - out,
    reserve_in + amount_in)], returns at most [amount_in]. *)
Theorem swap_there_and_back_loses
    (amount_in reserve_in reserve_out out : Z) :
  0 <= amount_in -> 0 < reserve_in -> 0 < reserve_out ->
  0 <= n <= d -> 0 < d ->
  constant_product_calc_exact_in amount_in reserve_in reserve_out fee
    = Ok out ->
  exists back,
    constant_product_calc_exact_in
      out (reserve_out - out) (reserve_in + amount_in) fee = Ok back
    /\ 0 <= back <= amount_in.
Proof.
  intros Ha Hri Hro Hn Hd Hin.
  destruct (exact_in_floor_facts _ _ _ _ Ha Hri Hro Hn Hd Hin)
    as [[Hout0 Hlt] Hle].
  assert (Hdiv : 0 < (reserve_out - out) * d + out * (d - n))
    by (apply exact_in_divisor_pos; lia).
  unfold constant_product_calc_exact_in.
  rewrite floordiv_nonzero by lia.
  eexists; split; [reflexivity |].
  split.
  - apply Z.div_pos; [| assumption].
    repeat apply Z.mul_nonneg_nonneg; lia.
  - apply Z.div_le_upper_bound; [assumption |].
    (* out*ri*d <= a*(d-n)*(ro-out), and (d-n) <= d *)
    assert (H1 : out * reserve_in * d
                 <= amount_in * (d - n) * (reserve_out - out)) by lia.
    assert (H2 : 0 <= amount_in * (reserve_out - out))
      by (apply Z.mul_nonneg_nonneg; lia).
    assert (H3 : amount_in * (reserve_out - out) * (d - n)
                 <= amount_in * (reserve_out - out) * d)
      by (apply Z.mul_le_mono_nonneg_l; lia).
    assert (H4 : 0 <= out * reserve_in)
      by (apply Z.mul_nonneg_nonneg; lia).
    assert (H5 : out * reserve_in * (d - n) <= out * reserve_in * d)
      by (apply Z.mul_le_mono_nonneg_l; lia).
    lia.
Qed.

End SwapInvariants.

(** X9.  A higher fee never buys more: for two fees between 0 and 1 with
    [n1/d1 <= n2/d2], the exact-input quote under the second is at most the
    quote under the first, on the same amount and reserves. *)
Theorem exact_in_antitone_in_fee
    (fee1 fee2 : Fraction) (amount_in reserve_in reserve_out : Z) :
  0 <= amount_in -> 0 < reserve_in -> 0 <= reserve_out ->
  0 < denominator fee1 -> 0 <= numerator fee1 <= denominator fee1 ->
  0 < denominator fee2 -> 0 <= numerator fee2 <= denominator fee2 ->
  numerator fee1 * denominator fee2 <= numerator fee2 * denominator fee1 ->
  exists o1 o2,
    constant_product_calc_exact_in amount_in reserve_in reserve_out fee1
      = Ok o1
    /\ constant_product_calc_exact_in amount_in reserve_in reserve_out fee2
       = Ok o2
    /\ o2 <= o1.
Proof.
  intros Ha Hri Hro Hd1 Hn1 Hd2 Hn2 Hfee.
  assert (HD1 : 0 < reserve_in * denominator fee1
                    + amount_in * (denominator fee1 - numerator fee1))
    by (apply exact_in_divisor_pos; lia).
  assert (HD2 : 0 < reserve_in * denominator fee2
                    + amount_in * (denominator fee2 - numerator fee2))
    by (apply exact_in_divisor_pos; lia).
  unfold constant_product_calc_exact_in.
  rewrite !floordiv_nonzero by lia.
  do 2 eexists. split; [reflexivity | split; [reflexivity |]].
  apply div_le_cross; try assumption.
  assert (Hk : 0 <= amount_in * reserve_out * reserve_in
                    * (numerator fee2 * denominator fee1
                       - numerator fee1 * denominator fee2)).
  { repeat apply Z.mul_nonneg_nonneg; lia. }
  lia.
Qed.

(** *** Concrete swaps *)

Lemma exact_out_quote_suffices_witness :
  exists q out',
    constant_product_calc_exact_out 996 1000000 1000000 fee_3_1000 = Ok q
    /\ 0 < q
    /\ constant_product_calc_exact_in q 1000000 1000000 fee_3_1000 = Ok out'
    /\ 996 <= out'.
Proof.
  apply (exact_out_quote_suffices fee_3_1000 996 1000000 1000000); cbn; lia.
Defined.

Lemma exact_in_quote_bounded_witness :
  exists q,
    constant_product_calc_exact_out 996 1000000 1000000 fee_3_1000 = Ok q
    /\ 1 <= q <= 1000 + 1.
Proof.
  apply (exact_in_quote_bounded fee_3_1000 1000 1000000 1000000 996);
    try (cbn; lia).
  reflexivity.
Defined.

Lemma exact_in_keeps_constant_product_witness :
  0 <= 996 < 1000000
  /\ 1000000 * 1000000 * 1000
     <= (1000000 * 1000 + 1000 * (1000 - 3)) * (1000000 - 996)
  /\ 1000000 * 1000000 <= (1000000 + 1000) * (1000000 - 996).
Proof.
  apply (exact_in_keeps_constant_product fee_3_1000 1000 1000000 1000000 996);
    try (cbn; lia).
  reflexivity.
Defined.

Lemma exact_out_quote_tight_witness :
  exists out',
    constant_product_calc_exact_in (1000 - 1) 1000000 1000000 fee_3_1000
      = Ok out'
    /\ out' <= 996.
Proof.
  apply (exact_out_quote_tight fee_3_1000 996 1000000 1000000 1000);
    try (cbn; lia).
  reflexivity.
Defined.

Lemma exact_out_monotone_witness :
  exists q1 q2,
    constant_product_calc_exact_out 10 1000 1000 fee_3_1000 = Ok q1
    /\ constant_product_calc_exact_out 20 1000 1000 fee_3_1000 = Ok q2
    /\ q1 <= q2.
Proof.
  apply (exact_out_monotone fee_3_1000 10 20 1000 1000); cbn; lia.
Defined.

Lemma exact_in_monotone_in_reserves_witness :
  exists low mid high,
    constant_product_calc_exact_in 10 2000 1000 fee_3_1000 = Ok low
    /\ constant_product_calc_exact_in 10 1000 1000 fee_3_1000 = Ok mid
    /\ constant_product_calc_exact_in 10 1000 3000 fee_3_1000 = Ok high
    /\ low <= mid <= high.
Proof.
  apply (exact_in_monotone_in_reserves fee_3_1000 10 1000 2000 1000 3000);
    cbn; lia.
Defined.

Lemma swap_there_and_back_loses_witness :
  exists back,
    constant_product_calc_exact_in
      996 (1000000 - 996) (1000000 + 1000) fee_3_1000 = Ok back
    /\ 0 <= back <= 1000.
Proof.
  apply (swap_there_and_back_loses fee_3_1000 1000 1000000 1000000 996);
    try (cbn; lia).
  reflexivity.
Defined.

Lemma exact_in_antitone_in_fee_witness :
  exists o1 o2,
    constant_product_calc_exact_in 1000 1000000 1000000 (mkFraction 1 400)
      = Ok o1
    /\ constant_product_calc_exact_in 1000 1000000 1000000 fee_3_1000
       = Ok o2
    /\ o2 <= o1.
Proof.
  apply (exact_in_antitone_in_fee (mkFraction 1 400) fee_3_1000
           1000 1000000 1000000); cbn; lia.
Defined.

(** * Further properties of the address derivation *)

(** A comprehension whose function raises stops at the leftmost element
    that raises. *)
Lemma comprehension_first_raise {A B : Type} (f : A -> outcome B)
    (pre : list A) (x : A) (post : list A) (e : exn) :
  Forall (fun a => exists b, f a = Ok b) pre ->
  f x = Raise e ->
  comprehension f (pre ++ x :: post) = Raise e.
Proof.
  intros Hpre Hx. induction Hpre as [| a pre [b Hb] _ IH]; cbn.
  - now rewrite Hx.
  - rewrite Hb. cbn [bind]. now rewrite IH.
Qed.

Section AddressDeriverMore.
Context `{libraries : EthLibraries}.

(** X10.  Whatever the order the two tokens are given in, the salt is the
    hash of the packing with the smaller address (in byte order) first: for
    decoded addresses [a <= b] both calls return what [create2_address]
    returns on [keccak(encode_packed([a, b]))]. *)
Theorem pool_address_packs_ascending
    (deployer init_hash A B : str_or_bytes) (a b : bytes) :
  HexBytes A = Ok a -> HexBytes B = Ok b ->
  bytes_lt b a = false ->
  generate_v2_pool_address deployer [A; B] init_hash
  = (packed <- encode_packed ["address"%string; "address"%string] [a; b] ;;
     create2_address deployer (keccak packed) init_hash)
  /\ generate_v2_pool_address deployer [B; A] init_hash
     = (packed <- encode_packed ["address"%string; "address"%string] [a; b] ;;
        create2_address deployer (keccak packed) init_hash).
Proof.
  intros HA HB Hle.
  assert (Hab : sorted [a; b] = [a; b]) by (cbn; now rewrite Hle).
  unfold generate_v2_pool_address. cbn [comprehension].
  rewrite HA, HB. cbn [bind].
  rewrite (sorted_pair_comm b a), Hab. split; reflexivity.
Qed.

(** X11.  If a token address does not decode, the derivation raises the
    exception of the leftmost such address; nothing is packed or hashed. *)
Theorem pool_address_first_bad_token
    (deployer init_hash : str_or_bytes)
    (pre : list str_or_bytes) (X : str_or_bytes) (post : list str_or_bytes)
    (e : exn) :
  Forall (fun A => exists a, HexBytes A = Ok a) pre ->
  HexBytes X = Raise e ->
  generate_v2_pool_address deployer (pre ++ X :: post) init_hash = Raise e.
Proof.
  intros Hpre HX. unfold generate_v2_pool_address.
  now rewrite (comprehension_first_raise HexBytes pre X post e Hpre HX).
Qed.

End AddressDeriverMore.

Lemma pool_address_packs_ascending_witness :
  @generate_v2_pool_address plain_libraries
    (Bytes [x00])
    [Bytes (List.repeat xaa 20); Bytes (List.repeat x01 20)]
    (Bytes [x00])
  = Ok (String.string_of_list_byte
          (List.repeat x01 20 ++ List.repeat xaa 20)).
Proof.
  apply (@pool_address_packs_ascending plain_libraries
           (Bytes [x00]) (Bytes [x00])
           (Bytes (List.repeat x01 20)) (Bytes (List.repeat xaa 20))
           (List.repeat x01 20) (List.repeat xaa 20)); reflexivity.
Defined.

Lemma pool_address_first_bad_token_witness :
  @generate_v2_pool_address plain_libraries
    (Bytes [x00])
    [Bytes (List.repeat xaa 20); Str "0xzz"]
    (Bytes [x00])
  = Raise (OtherError "ValueError").
Proof.
  apply (@pool_address_first_bad_token plain_libraries
           (Bytes [x00]) (Bytes [x00])
           [Bytes (List.repeat xaa 20)] (Str "0xzz") []
           (OtherError "ValueError")).
  - constructor; [| constructor].
    exists (List.repeat xaa 20). reflexivity.
  - reflexivity.
Defined.

(** * Further properties of the path resolution *)

(** A path that goes through a token splits there into two paths sharing
    that token. *)
Lemma pairwise_app {A : Type} (p : list A) (t : A) (q : list A) :
  pairwise (p ++ t :: q) = pairwise (p ++ [t]) ++ pairwise (t :: q).
Proof.
  induction p as [| x [| y p] IH]; try reflexivity.
  change (pairwise ((x :: y :: p) ++ t :: q))
    with ((x, y) :: pairwise ((y :: p) ++ t :: q)).
  change (pairwise ((x :: y :: p) ++ [t]))
    with ((x, y) :: pairwise ((y :: p) ++ [t])).
  now rewrite IH.
Qed.

Section PathResolverMore.
Variable Pool : Type.
Variable pool_manager : UniswapV2PoolManager Pool.
Local Abbreviation asks p := (mkLookup p true).

(** What a returning loop has done: one call per pair, in order, and the
    pools appended are the manager's answers to those calls. *)
Lemma resolve_loop_ok_inv
    (pairs : list (ChecksumAddress * ChecksumAddress)) :
  forall (acc r : list Pool) (log log' : list lookup),
    resolve_loop pool_manager pairs acc log = (Ok r, log') ->
    log' = log ++ map (fun x => asks x) pairs
    /\ exists pools,
         r = acc ++ pools
         /\ List.length pools = List.length pairs
         /\ forall j q, nth_error pairs j = Some q ->
              exists pool,
                nth_error pools j = Some pool
                /\ get_pool_from_tokens pool_manager
                     (log ++ map (fun x => asks x) (firstn j pairs)) (asks q)
                   = Ok pool.
Proof.
  induction pairs as [| p0 pairs IH]; intros acc r log log' Hrun.
  - cbn in Hrun. injection Hrun as <- <-.
    split; [now rewrite app_nil_r |].
    exists []. split; [now rewrite app_nil_r | split; [reflexivity |]].
    intros [| j] q Hq; discriminate Hq.
  - cbn [resolve_loop] in Hrun.
    unfold bindC at 1, call_get_pool_from_tokens in Hrun.
    destruct (get_pool_from_tokens pool_manager log (asks p0))
      as [pool | e] eqn:Hp0; [| discriminate Hrun].
    destruct (IH _ _ _ _ Hrun) as [Hlog [pools [Hr [Hlen Hnth]]]].
    split; [cbn [map]; now rewrite Hlog, <- app_assoc |].
    exists (pool :: pools).
    split; [now rewrite Hr, <- app_assoc |].
    split; [cbn; now rewrite Hlen |].
    intros [| j] q Hq.
    + cbn in Hq. injection Hq as <-. exists pool.
      split; [reflexivity |]. cbn. now rewrite app_nil_r.
    + destruct (Hnth j q Hq) as [pool' [Hn Hg]].
      exists pool'. split; [exact Hn |].
      cbn [firstn map]. now rewrite <- app_assoc in Hg.
Qed.

(** What a raising loop has done: it stopped at some pair whose lookup
    raised that very exception, after the lookups before it returned. *)
Lemma resolve_loop_raise_inv
    (pairs : list (ChecksumAddress * ChecksumAddress)) :
  forall (acc : list Pool) (log log' : list lookup) (e : exn),
    resolve_loop pool_manager pairs acc log = (Raise e, log') ->
    exists i p,
      nth_error pairs i = Some p
      /\ log' = log ++ map (fun x => asks x) (firstn (S i) pairs)
      /\ get_pool_from_tokens pool_manager
           (log ++ map (fun x => asks x) (firstn i pairs)) (asks p)
         = Raise e
      /\ forall j q, (j < i)%nat -> nth_error pairs j = Some q ->
           exists pool,
             get_pool_from_tokens pool_manager
               (log ++ map (fun x => asks x) (firstn j pairs)) (asks q)
             = Ok pool.
Proof.
  induction pairs as [| p0 pairs IH]; intros acc log log' e Hrun.
  - discriminate Hrun.
  - cbn [resolve_loop] in Hrun.
    unfold bindC at 1, call_get_pool_from_tokens in Hrun.
    destruct (get_pool_from_tokens pool_manager log (asks p0))
      as [pool | e0] eqn:Hp0.
    + destruct (IH _ _ _ _ Hrun) as [i [p [Hi [Hlog [Hat Hbefore]]]]].
      exists (S i), p. split; [exact Hi |].
      split; [cbn [firstn map]; now rewrite Hlog, <- app_assoc |].
      split; [cbn [firstn map]; now rewrite <- app_assoc in Hat |].
      intros [| j] q Hj Hq.
      * cbn in Hq. injection Hq as <-. exists pool.
        cbn. now rewrite app_nil_r.
      * destruct (Hbefore j q ltac:(lia) Hq) as [pool' Hg].
        exists pool'. cbn [firstn map]. now rewrite <- app_assoc in Hg.
    + injection Hrun as <- <-.
      exists 0%nat, p0. split; [reflexivity |].
      split; [reflexivity |].
      split; [cbn; now rewrite app_nil_r |].
      intros j q Hj. lia.
Qed.

(** For a manager whose answers do not depend on earlier calls, the loop
    is the left-to-right comprehension of the lookup over the pairs. *)
Lemma resolve_loop_stateless
    (pairs : list (ChecksumAddress * ChecksumAddress)) :
  (forall log1 log2 l,
     get_pool_from_tokens pool_manager log1 l
     = get_pool_from_tokens pool_manager log2 l) ->
  forall acc log,
    fst (resolve_loop pool_manager pairs acc log)
    = (pools <- comprehension
                  (fun p => get_pool_from_tokens pool_manager [] (asks p))
                  pairs ;;
       Ok (acc ++ pools)).
Proof.
  intros Hstateless.
  induction pairs as [| p0 pairs IH]; intros acc log.
  - cbn. now rewrite app_nil_r.
  - cbn [resolve_loop comprehension].
    unfold bindC at 1, call_get_pool_from_tokens.
    rewrite (Hstateless log [] (asks p0)).
    destruct (get_pool_from_tokens pool_manager [] (asks p0))
      as [pool | e]; [| reflexivity].
    rewrite IH. cbn [bind].
    destruct (comprehension _ pairs) as [pools | e]; [| reflexivity].
    cbn [bind]. now rewrite <- app_assoc.
Qed.

Lemma comprehension_app {A B : Type} (f : A -> outcome B) (l1 l2 : list A)
    (r1 r2 : list B) :
  comprehension f l1 = Ok r1 -> comprehension f l2 = Ok r2 ->
  comprehension f (l1 ++ l2) = Ok (r1 ++ r2).
Proof.
  revert r1. induction l1 as [| x l1 IH]; intros r1 H1 H2.
  - cbn in H1. injection H1 as <-. exact H2.
  - cbn in *. destruct (f x) as [y | e]; [| discriminate H1].
    cbn [bind] in *.
    destruct (comprehension f l1) as [ys | e]; [| discriminate H1].
    cbn [bind] in H1. injection H1 as <-.
    now rewrite (IH ys eq_refl H2).
Qed.

(** X12.  When the resolution returns, it returns one pool per consecutive
    pair of the path, in path order: the list has one element less than the
    path, the manager was called once for every pair, in order and with
    [silent=True], and the [j]-th pool is the manager's answer to the
    [j]-th call. *)
Theorem path_resolution_returns_one_pool_per_hop
    (tx_path : list ChecksumAddress) (pools : list Pool)
    (log : list lookup) :
  get_v2_pools_from_token_path tx_path pool_manager = (Ok pools, log) ->
  List.length pools = Nat.pred (List.length tx_path)
  /\ log = map (fun x => asks x) (pairwise tx_path)
  /\ forall j a b,
       nth_error tx_path j = Some a -> nth_error tx_path (S j) = Some b ->
       exists pool,
         nth_error pools j = Some pool
         /\ get_pool_from_tokens pool_manager
              (map (fun x => asks x) (firstn j (pairwise tx_path)))
              (asks (a, b))
            = Ok pool.
Proof.
  intros Hrun. unfold get_v2_pools_from_token_path in Hrun.
  destruct (resolve_loop_ok_inv _ _ _ _ _ Hrun)
    as [Hlog [ps [Hr [Hlen Hnth]]]].
  cbn [app] in Hr, Hlog. subst ps.
  split; [now rewrite Hlen, length_pairwise |].
  split; [exact Hlog |].
  intros j a b Ha Hb.
  apply (Hnth j (a, b)). apply nth_error_pairwise. auto.
Qed.

(** X13.  The resolution raises nothing of its own: whenever it fails, the
    exception is the one the manager raised for some pair
    [(token[i], token[i+1])] of the path, the lookups before that pair had
    returned, and the calls made stop at that pair. *)
Theorem path_resolution_raises_only_lookup_errors
    (tx_path : list ChecksumAddress) (e : exn) (log : list lookup) :
  get_v2_pools_from_token_path tx_path pool_manager = (Raise e, log) ->
  exists i a b,
    nth_error tx_path i = Some a
    /\ nth_error tx_path (S i) = Some b
    /\ log = map (fun x => asks x) (firstn (S i) (pairwise tx_path))
    /\ get_pool_from_tokens pool_manager
         (map (fun x => asks x) (firstn i (pairwise tx_path))) (asks (a, b))
       = Raise e
    /\ forall j q, (j < i)%nat -> nth_error (pairwise tx_path) j = Some q ->
         exists pool,
           get_pool_from_tokens pool_manager
             (map (fun x => asks x) (firstn j (pairwise tx_path))) (asks q)
           = Ok pool.
Proof.
  intros Hrun. unfold get_v2_pools_from_token_path in Hrun.
  destruct (resolve_loop_raise_inv _ _ _ _ _ Hrun)
    as [i [[a b] [Hi [Hlog [Hat Hbefore]]]]].
  exists i, a, b. apply nth_error_pairwise in Hi. destruct Hi as [Ha Hb].
  repeat split; assumption.
Qed.

(** X14.  With a manager whose answers do not depend on earlier calls, a
    route through a token resolves to the pools of its two halves: if
    [p ++ [t]] resolves to [r1] and [t :: q] to [r2], then [p ++ t :: q]
    resolves to [r1 ++ r2]. *)
Theorem path_resolution_splits
    (p : list ChecksumAddress) (t : ChecksumAddress)
    (q : list ChecksumAddress) (r1 r2 : list Pool) :
  (forall log1 log2 l,
     get_pool_from_tokens pool_manager log1 l
     = get_pool_from_tokens pool_manager log2 l) ->
  fst (get_v2_pools_from_token_path (p ++ [t]) pool_manager) = Ok r1 ->
  fst (get_v2_pools_from_token_path (t :: q) pool_manager) = Ok r2 ->
  fst (get_v2_pools_from_token_path (p ++ t :: q) pool_manager)
  = Ok (r1 ++ r2).
Proof.
  intros Hstateless H1 H2.
  unfold get_v2_pools_from_token_path in *.
  rewrite (resolve_loop_stateless _ Hstateless) in H1.
  rewrite (resolve_loop_stateless _ Hstateless) in H2.
  rewrite (resolve_loop_stateless _ Hstateless).
  destruct (@comprehension _ Pool _ (pairwise (p ++ [t])))
    as [ps1 | e] eqn:E1; [| discriminate H1].
  destruct (@comprehension _ Pool _ (pairwise (t :: q)))
    as [ps2 | e] eqn:E2; [| discriminate H2].
  cbn [bind app] in H1, H2. injection H1 as ->. injection H2 as ->.
  rewrite pairwise_app.
  now rewrite (comprehension_app _ _ _ _ _ E1 E2).
Qed.

End PathResolverMore.

(** *** Concrete resolutions *)

Lemma path_resolution_returns_one_pool_per_hop_witness :
  List.length [("A", "B"); ("B", "C"); ("C", "D")]%string
  = Nat.pred (List.length ["A"; "B"; "C"; "D"]%string)
  /\ [mkLookup ("A", "B")%string true; mkLookup ("B", "C")%string true;
      mkLookup ("C", "D")%string true]
     = map (fun x => mkLookup x true)
           (pairwise ["A"; "B"; "C"; "D"]%string)
  /\ forall j a b,
       nth_error ["A"; "B"; "C"; "D"]%string j = Some a ->
       nth_error ["A"; "B"; "C"; "D"]%string (S j) = Some b ->
       exists pool,
         nth_error [("A", "B"); ("B", "C"); ("C", "D")]%string j = Some pool
         /\ get_pool_from_tokens any_pair_manager
              (map (fun x => mkLookup x true)
                   (firstn j (pairwise ["A"; "B"; "C"; "D"]%string)))
              (mkLookup (a, b) true)
            = Ok pool.
Proof.
  apply (path_resolution_returns_one_pool_per_hop
           (string * string) any_pair_manager
           ["A"; "B"; "C"; "D"]%string).
  reflexivity.
Defined.

Lemma path_resolution_raises_only_lookup_errors_witness :
  exists i a b,
    nth_error ["A"; "B"; "C"; "D"]%string i = Some a
    /\ nth_error ["A"; "B"; "C"; "D"]%string (S i) = Some b
    /\ [mkLookup ("A", "B")%string true; mkLookup ("B", "C")%string true;
        mkLookup ("C", "D")%string true]
       = map (fun x => mkLookup x true)
             (firstn (S i) (pairwise ["A"; "B"; "C"; "D"]%string))
    /\ get_pool_from_tokens two_call_manager
         (map (fun x => mkLookup x true)
              (firstn i (pairwise ["A"; "B"; "C"; "D"]%string)))
         (mkLookup (a, b) true)
       = Raise (OtherError "ManagerError")
    /\ forall j q, (j < i)%nat ->
         nth_error (pairwise ["A"; "B"; "C"; "D"]%string) j = Some q ->
         exists pool,
           get_pool_from_tokens two_call_manager
             (map (fun x => mkLookup x true)
                  (firstn j (pairwise ["A"; "B"; "C"; "D"]%string)))
             (mkLookup q true)
           = Ok pool.
Proof.
  apply (path_resolution_raises_only_lookup_errors nat two_call_manager
           ["A"; "B"; "C"; "D"]%string (OtherError "ManagerError")).
  reflexivity.
Defined.

Lemma path_resolution_splits_witness :
  fst (get_v2_pools_from_token_path
         (["A"%string; "B"%string] ++ "C"%string :: ["D"%string])
         any_pair_manager)
  = Ok ([("A"%string, "B"%string); ("B"%string, "C"%string)]
        ++ [("C"%string, "D"%string)]).
Proof.
  apply (path_resolution_splits (string * string) any_pair_manager
           ["A"; "B"]%string "C"%string ["D"]%string).
  - reflexivity.
  - reflexivity.
  - reflexivity.
Defined.
